(** * Sefn::Trie — a shallow embedding of include/Sefn/Trie.hpp

    The class template [Sefn::Trie<T>] is a prefix tree: every node holds a
    non-owning [T* object] and a [std::map<char, Trie*> children].  The
    embedding keeps that shape.

    - A [T*] is an [option T]: [None] is [nullptr], [Some a] is a non-null
      pointer.  The tree never dereferences it.
    - [std::map<char, Trie*>] is a [gmap ascii Trie].  The map owns its
      children and no child pointer is ever null between two calls
      ([insert] fills the slot that [operator[]] creates before it moves on,
      [clear] empties the map), so the values of the map are the nodes.
    - [std::string] is [string]; a range-for over it is structural recursion.
    - A mutating member function returns the node it leaves behind. *)

From stdpp Require Import gmap strings list fin_maps sorting.
From Stdlib Require Import Ascii String ZArith.

#[local] Open Scope string_scope.
#[local] Open Scope list_scope.

(** ** Iteration order of [std::map<char, _>]

    The map iterates by ascending key under [std::less<char>], that is, by
    the value of the [char].  Whether [char] is signed is left to the
    platform, so the model takes it as a parameter: with [char_signed] the
    codes 128..255 stand for -128..-1. *)

Definition char_value (char_signed : bool) (c : ascii) : Z :=
  let n := Z.of_N (N_of_ascii c) in
  (if char_signed && (128 <=? n) then n - 256 else n)%Z.

Definition char_lt (char_signed : bool) (a b : ascii) : bool :=
  (char_value char_signed a <? char_value char_signed b)%Z.

(** Every [char], by ascending value. *)
Definition all_chars (char_signed : bool) : list ascii :=
  if char_signed
  then (ascii_of_nat <$> seq 128 128) ++ (ascii_of_nat <$> seq 0 128)
  else ascii_of_nat <$> seq 0 256.

(** The bindings of a map in the order a range-for visits them. *)
Definition in_order {A} (char_signed : bool) (m : gmap ascii A)
  : list (ascii * A) :=
  omap (λ c, (c,.) <$> m !! c) (all_chars char_signed).

(** Lexicographic order on keys induced by the order on [char]. *)
Fixpoint key_lt (char_signed : bool) (a b : string) : bool :=
  match a, b with
  | _, EmptyString => false
  | EmptyString, String _ _ => true
  | String x a', String y b' =>
      char_lt char_signed x y
      || (bool_decide (x = y) && key_lt char_signed a' b')
  end.

Section Trie.
Context {T : Type}.

(** ** The node *)

#[warnings="-register-all"] Inductive Trie : Type :=
  Node { object : option T; children : gmap ascii Trie }.

(** [Trie() = default]: no object, no children. *)
Definition Trie_default : Trie := Node None ∅.

(** ** Private helpers *)

(** [find]: walk down from [this]; [None] is the [nullptr] result. *)
Fixpoint find (this : Trie) (prefix : string) : option Trie :=
  match prefix with
  | EmptyString => Some this
  | String ch rest =>
      match children this !! ch with
      | None => None
      | Some child => find child rest
      end
  end.

(** [traverseRecursive]: the node's own object first (when non-null), then
    each child in map order.  The effect of [function] is a change of a
    state of type [S].  Every callback in the header captures its target by
    reference, so the copies handed to the recursive calls act on one
    state, which is threaded through here. *)
Fixpoint traverseRecursive {S : Type} (char_signed : bool)
    (function : option T → S → S) (this : Trie) (s : S) : S :=
  match this with
  | Node obj chs =>
      let s1 := match obj with
                | Some _ => function obj s
                | None => s
                end in
      foldl (λ acc kv, kv.2 acc) s1
            (in_order char_signed
               (traverseRecursive char_signed function <$> chs))
  end.

(** [getAllObjects]: the callback is [results.push_back(obj)]. *)
Definition getAllObjects (char_signed : bool) (this : Trie)
    (results : list (option T)) : list (option T) :=
  traverseRecursive char_signed (λ obj res, res ++ [obj]) this results.

(** [removeRecursive(word, index)]: the recursion is on the part of
    [word] from [index] on.  The result is the returned flag and the node
    after the call. *)
Fixpoint removeRecursive (this : Trie) (word : string) : bool * Trie :=
  match word with
  | EmptyString =>
      match object this with
      | None => (false, this)
      | Some _ =>
          (bool_decide (children this = ∅), Node None (children this))
      end
  | String ch rest =>
      match children this !! ch with
      | None => (false, this)
      | Some child =>
          let '(canDeleteChild, child') := removeRecursive child rest in
          if canDeleteChild
          then
            let chs := delete ch (children this) in
            (bool_decide (object this = None) && bool_decide (chs = ∅),
             Node (object this) chs)
          else
            (false, Node (object this) (<[ch := child']> (children this)))
      end
  end.

(** ** Public member functions *)

(** [children[ch]] once [insert] has filled it: the child already there,
    or a [new Trie]. *)
Definition slot (this : Trie) (ch : ascii) : Trie :=
  match children this !! ch with
  | Some child => child
  | None => Trie_default
  end.

Fixpoint insert (this : Trie) (obj : option T) (word : string) : Trie :=
  match word with
  | EmptyString => Node obj (children this)
  | String ch rest =>
      let child := slot this ch in
      Node (object this) (<[ch := insert child obj rest]> (children this))
  end.

Definition wordExists (this : Trie) (word : string) : option T :=
  match find this word with
  | Some current =>
      match object current with
      | Some _ => object current
      | None => None
      end
  | None => None
  end.

Definition erase (this : Trie) (word : string) : bool * Trie :=
  match wordExists this word with
  | None => (false, this)
  | Some _ => (true, (removeRecursive this word).2)
  end.

Definition prefixExists (this : Trie) (prefix : string) : bool :=
  match find this prefix with
  | Some _ => true
  | None => false
  end.


Definition autoComplete (char_signed : bool) (this : Trie)
    (prefix : string) : list (option T) :=
  match find this prefix with
  | Some root => getAllObjects char_signed root []
  | None => []
  end.

(** [clear]: every child is deleted and the map emptied; [object] is not
    assigned. *)
Definition clear (this : Trie) : Trie := Node (object this) ∅.

(** ** Notions used by the statements *)

(** Longest path below a node, for induction on the tree. *)
Fixpoint height (t : Trie) : nat :=
  match t with
  | Node _ chs => S (max_list ((map_to_list (height <$> chs)).*2))
  end.

(** The keys that carry a non-null object, in visiting order. *)
Fixpoint keys (char_signed : bool) (t : Trie) : list string :=
  match t with
  | Node obj chs =>
      (match obj with Some _ => [EmptyString] | None => [] end)
      ++ (in_order char_signed (keys char_signed <$> chs)
            ≫= λ kv : ascii * list string, String kv.1 <$> kv.2)
  end.

(** A node with neither object nor children. *)
Definition dead_end (t : Trie) : Prop :=
  object t = None ∧ children t = ∅.

(** No node below the root is a dead end. *)
Definition no_dead_ends (t : Trie) : Prop :=
  ∀ path n, path ≠ EmptyString → find t path = Some n → ¬ dead_end n.

(** Histories of mutating calls, for "never inserted". *)
Inductive call : Type :=
| CallInsert (obj : option T) (word : string)
| CallErase (word : string)
| CallClear.

Definition step (t : Trie) (c : call) : Trie :=
  match c with
  | CallInsert obj word => insert t obj word
  | CallErase word => (erase t word).2
  | CallClear => clear t
  end.

Definition run (cs : list call) : Trie := foldl step Trie_default cs.

(** No call of the history is an [insert] of [word]. *)
Definition never_inserted (word : string) (cs : list call) : bool :=
  forallb (λ c, match c with
                | CallInsert _ w => negb (bool_decide (w = word))
                | _ => true
                end) cs.
(** No call of the history is an [insert] of a null pointer. *)
Definition null_free (cs : list call) : bool :=
  forallb (λ c, match c with
                | CallInsert None _ => false
                | _ => true
                end) cs.

(** The finite map from words to non-null pointers that a history stands
    for: what a [std::map<std::string, T*>] without null entries would
    hold, had the calls been made on it, with [clear] keeping the entry of
    the empty word. *)
Definition model_step (m : gmap string T) (c : call) : gmap string T :=
  match c with
  | CallInsert (Some a) word => <[word := a]> m
  | CallInsert None word => delete word m
  | CallErase word => delete word m
  | CallClear =>
      match m !! EmptyString with
      | Some a => {[ EmptyString := a ]}
      | None => ∅
      end
  end.

Definition model (cs : list call) : gmap string T := foldl model_step ∅ cs.
End Trie.

Arguments Trie : clear implicits.

(** * include/Trie.hpp — the class template outside the namespace

    The header at the top of include/ declares the same class without
    [erase] and [removeRecursive].  Its [find], [getAllObjects],
    [traverseRecursive], [insert], [wordExists], [prefixExists], [traverse]
    and [clear] are those of [Sefn::Trie] line for line, so the definitions
    above stand for them too.  Only [autoComplete] differs: it fills a
    vector that the caller passes by reference and returns nothing. *)

Module GlobalTrie.
Definition autoComplete {T : Type} (char_signed : bool) (this : Trie T)
    (prefix : string) (results : list (option T)) : list (option T) :=
  match find this prefix with
  | Some root => getAllObjects char_signed root results
  | None => results
  end.
End GlobalTrie.

(** * Sefn::readValidatedInput — include/Sefn/InputUtils.hpp

    The console is a state: the lines [std::getline] has still to deliver
    from [std::cin], and what has been written to [std::cout] and
    [std::cerr].  On an exhausted [std::cin] every [getline] fails, and
    keeps failing. *)

Record console : Type :=
  Console { cin : list string; cout : string; cerr : string }.

Definition newline : string := String "010"%char EmptyString.

(** [std::string(n, c)]. *)
Fixpoint fill (n : nat) (c : ascii) : string :=
  match n with
  | O => EmptyString
  | S n' => String c (fill n' c)
  end.

Section InputUtils.
Context {T : Type}.

(** The extraction [(ss >> value) && ss.eof()] at type [T] is the one of
    the standard library: [parse line] is the value when the whole line
    reads as one [T], and [None] when the condition is false. *)
Variable parse : string → option T.

(** [!validator || validator(value)]; [None] is the empty
    [std::function]. *)
Definition passes (validator : option (T → bool)) (value : T) : bool :=
  match validator with
  | None => true
  | Some check => check value
  end.

(** One turn of the [while (true)]: the new console and, when the loop is
    left by [break], the value. *)
Definition turn (promptStr errorIndent : string)
    (validator : option (T → bool))
    (errorMessage formatErrorMessage : string) (io : console)
  : console * option T :=
  let io1 := Console (cin io) (cout io +:+ promptStr) (cerr io) in
  match cin io1 with
  | [] =>
      (Console [] (cout io1)
         (cerr io1 +:+ errorIndent +:+ "Error reading input." +:+ newline),
       None)
  | line :: rest =>
      let io2 := Console rest (cout io1) (cerr io1) in
      match parse line with
      | Some value =>
          if passes validator value
          then (io2, Some value)
          else (Console rest (cout io2 +:+ errorIndent +:+ errorMessage)
                  (cerr io2), None)
      | None =>
          (Console rest (cout io2 +:+ errorIndent +:+ formatErrorMessage)
             (cerr io2), None)
      end
  end.

(** The loop, run for at most [fuel] turns; [None] when it has not been
    left by then. *)
Fixpoint input_loop (fuel : nat) (promptStr errorIndent : string)
    (validator : option (T → bool))
    (errorMessage formatErrorMessage : string) (io : console)
  : option (T * console) :=
  match fuel with
  | O => None
  | S fuel' =>
      match turn promptStr errorIndent validator
              errorMessage formatErrorMessage io with
      | (io', Some value) => Some (value, io')
      | (io', None) =>
          input_loop fuel' promptStr errorIndent validator
            errorMessage formatErrorMessage io'
      end
  end.

(** [indentTabs] is documented as non-negative, hence a [nat]. *)
Definition readValidatedInput (fuel : nat) (prompt : string)
    (indentTabs : nat) (validator : option (T → bool))
    (errorMessage formatErrorMessage : string) (io : console)
  : option (T * console) :=
  let indentStr := fill indentTabs "009"%char in
  let promptStr := indentStr +:+ prompt in
  let errorIndent := indentStr +:+ String "009"%char EmptyString in
  input_loop fuel promptStr errorIndent validator
    errorMessage formatErrorMessage io.

(** ** Notions used by the statements *)

(** The value a line is accepted with, if it is. *)
Definition accepted (validator : option (T → bool)) (line : string)
  : option T :=
  match parse line with
  | Some value => if passes validator value then Some value else None
  | None => None
  end.

(** What the loop writes to [std::cout] for a rejected line. *)
Definition rejection (promptStr errorIndent : string)
    (errorMessage formatErrorMessage : string) (line : string) : string :=
  promptStr +:+ errorIndent +:+
  match parse line with
  | Some _ => errorMessage
  | None => formatErrorMessage
  end.
End InputUtils.

(** * Facts *)

Section TrieFacts.
Context {T : Type}.
Implicit Types (t this child n : Trie T) (obj v o : option T).
Implicit Types (chs : gmap ascii (Trie T)).
Implicit Types (word prefix K P S : string) (ch c : ascii).

(** ** Lookup *)

Lemma wordExists_find t K : wordExists t K = find t K ≫= object.
Proof.
  unfold wordExists. destruct (find t K) as [n|]; [|done].
  simpl. by destruct (object n).
Qed.

Lemma find_app t P S : find t (P +:+ S) = find t P ≫= λ n, find n S.
Proof.
  revert t. induction P as [|c P IH]; intros t; [done|].
  change (String c P +:+ S) with (String c (P +:+ S)). simpl.
  destruct (children t !! c) as [child|]; [apply IH|done].
Qed.

Lemma find_Trie_default K : K ≠ "" → find (@Trie_default T) K = None.
Proof. destruct K; [done|]. intros _. simpl. by rewrite lookup_empty. Qed.

Lemma wordExists_Trie_default K : wordExists (@Trie_default T) K = None.
Proof.
  rewrite wordExists_find. destruct K; [done|].
  by rewrite find_Trie_default.
Qed.

Lemma wordExists_cons t c K :
  wordExists t (String c K) =
  match children t !! c with
  | Some child => wordExists child K
  | None => None
  end.
Proof.
  rewrite wordExists_find. simpl.
  destruct (children t !! c); [by rewrite wordExists_find|done].
Qed.

Lemma wordExists_nil t : wordExists t "" = object t.
Proof. by rewrite wordExists_find. Qed.

Lemma wordExists_app t P S n :
  find t P = Some n → wordExists t (P +:+ S) = wordExists n S.
Proof. intros Hn. by rewrite !wordExists_find, find_app, Hn. Qed.

Lemma wordExists_app_None t P S :
  find t P = None → wordExists t (P +:+ S) = None.
Proof. intros Hn. by rewrite !wordExists_find, find_app, Hn. Qed.

Lemma prefixExists_app t P S :
  prefixExists t (P +:+ S) = true → prefixExists t P = true.
Proof.
  unfold prefixExists. rewrite find_app.
  by destruct (find t P).
Qed.

(** ** insert *)

Lemma insert_cons t obj c K :
  insert t obj (String c K) =
  Node (object t) (<[c := insert (slot t c) obj K]> (children t)).
Proof. done. Qed.

Lemma wordExists_slot t c K :
  wordExists (slot t c) K = wordExists t (String c K).
Proof.
  rewrite wordExists_cons. unfold slot.
  destruct (children t !! c); [done|apply wordExists_Trie_default].
Qed.

Lemma wordExists_insert_eq t obj K : wordExists (insert t obj K) K = obj.
Proof.
  revert t. induction K as [|c K IH]; intros t.
  - by rewrite wordExists_nil.
  - rewrite insert_cons, wordExists_cons. simpl.
    rewrite lookup_insert_eq. apply IH.
Qed.

Lemma wordExists_insert_ne t obj K K' :
  K ≠ K' → wordExists (insert t obj K') K = wordExists t K.
Proof.
  revert t K. induction K' as [|c' K' IH]; intros t K Hne.
  - destruct K as [|c K]; [done|]. by rewrite !wordExists_cons.
  - rewrite insert_cons. destruct K as [|c K]; [by rewrite !wordExists_nil|].
    rewrite (wordExists_cons (Node _ _)). simpl.
    destruct (decide (c' = c)) as [->|Hc].
    + rewrite lookup_insert_eq, IH by congruence. apply wordExists_slot.
    + rewrite lookup_insert_ne by done. by rewrite wordExists_cons.
Qed.

Lemma find_insert_prefix t obj P S : is_Some (find (insert t obj (P +:+ S)) P).
Proof.
  revert t. induction P as [|c P IH]; intros t; [by eexists|].
  change (String c P +:+ S) with (String c (P +:+ S)).
  rewrite insert_cons. simpl. rewrite lookup_insert_eq. apply IH.
Qed.

Lemma insert_insert t v1 v2 K :
  insert (insert t v1 K) v2 K = insert t v2 K.
Proof.
  revert t. induction K as [|c K IH]; intros t; [done|].
  rewrite !insert_cons. simpl. unfold slot at 1. simpl.
  rewrite lookup_insert_eq, insert_insert_eq. by rewrite IH.
Qed.

Lemma append_nil_r K : K +:+ "" = K.
Proof. induction K as [|c K IH]; [done|]. by rewrite <-IH at 2. Qed.

(** ** removeRecursive *)

Lemma removeRecursive_cons t c K :
  removeRecursive t (String c K) =
  match children t !! c with
  | None => (false, t)
  | Some child =>
      if (removeRecursive child K).1
      then (bool_decide (object t = None)
            && bool_decide (delete c (children t) = ∅),
            Node (object t) (delete c (children t)))
      else (false,
            Node (object t)
                 (<[c := (removeRecursive child K).2]> (children t)))
  end.
Proof.
  simpl. destruct (children t !! c) as [child|]; [|done].
  by destruct (removeRecursive child K) as [[] child'].
Qed.

(** What a call leaves behind: the word is gone, every other key keeps
    its object, and a node reported as deletable is an empty one. *)
Lemma removeRecursive_spec K t :
  (∀ K2, wordExists (removeRecursive t K).2 K2 =
         if decide (K2 = K) then None else wordExists t K2)
  ∧ ((removeRecursive t K).1 = true →
     (removeRecursive t K).2 = Trie_default)
  ∧ ((removeRecursive t K).1 = false →
     (removeRecursive t K).2 = t ∨ ¬ dead_end (removeRecursive t K).2).
Proof.
  revert t. induction K as [|c K IH]; intros [o chs].
  - simpl. destruct o as [a|]; simpl.
    + split_and!.
      * intros [|c2 K2]; [done|]. by rewrite !wordExists_cons.
      * intros ->%bool_decide_eq_true. done.
      * intros Hne%bool_decide_eq_false. right. by intros [_ ?].
    + split_and!; [|done|by left].
      intros K2. case_decide as HK; [by subst|done].
  - rewrite removeRecursive_cons. simpl.
    destruct (chs !! c) as [child|] eqn:Hc; simpl.
    2:{ split_and!; [|done|by left].
        intros K2. case_decide as HK; [|done].
        subst. by rewrite wordExists_cons; simpl; rewrite Hc. }
    destruct (IH child) as (Hw & Hdel & Hkeep).
    destruct (removeRecursive child K) as [[] child']; simpl in *.
    + specialize (Hdel eq_refl). subst child'. split_and!.
      * intros [|c2 K2]; [done|]. rewrite !wordExists_cons. simpl.
        destruct (decide (c2 = c)) as [->|Hne].
        -- rewrite lookup_delete_eq, Hc. specialize (Hw K2).
           rewrite wordExists_Trie_default in Hw.
           repeat case_decide; congruence.
        -- rewrite lookup_delete_ne by done.
           case_decide; [congruence|done].
      * intros [Ho%bool_decide_eq_true Hch%bool_decide_eq_true]%andb_true_iff.
        by rewrite Ho, Hch.
      * intros Hf. right. intros [Ho Hch]. simpl in *.
        by rewrite Ho, Hch, !bool_decide_eq_true_2 in Hf.
    + split_and!; [|done|].
      * intros [|c2 K2]; [done|]. rewrite !wordExists_cons. simpl.
        destruct (decide (c2 = c)) as [->|Hne].
        -- rewrite lookup_insert_eq, Hc, Hw.
           repeat case_decide; congruence.
        -- rewrite lookup_insert_ne by done.
           case_decide; [congruence|done].
      * intros _. right. intros [_ Hch]. simpl in Hch.
        by apply insert_non_empty in Hch.
Qed.

Lemma wordExists_removeRecursive t K K2 :
  wordExists (removeRecursive t K).2 K2 =
  if decide (K2 = K) then None else wordExists t K2.
Proof. apply removeRecursive_spec. Qed.

(** ** erase *)

Lemma erase_None t K : wordExists t K = None → erase t K = (false, t).
Proof. unfold erase. by intros ->. Qed.

Lemma erase_Some t K :
  wordExists t K ≠ None → erase t K = (true, (removeRecursive t K).2).
Proof. unfold erase. by destruct (wordExists t K). Qed.

Lemma wordExists_erase t K K2 :
  wordExists (erase t K).2 K2 =
  if decide (K2 = K) then None else wordExists t K2.
Proof.
  destruct (wordExists t K) as [a|] eqn:HK.
  - rewrite erase_Some by congruence. apply wordExists_removeRecursive.
  - rewrite erase_None by done. simpl. case_decide; congruence.
Qed.

(** ** clear *)

Lemma find_clear t K : K ≠ "" → find (clear t) K = None.
Proof. destruct K; [done|]. intros _. simpl. by rewrite lookup_empty. Qed.

Lemma wordExists_clear t K :
  wordExists (clear t) K = if decide (K = "") then object t else None.
Proof.
  rewrite wordExists_find. case_decide as HK; [by subst|].
  by rewrite find_clear.
Qed.

(** ** Dead ends *)

Lemma find_same_children t1 t2 K :
  children t1 = children t2 → K ≠ "" → find t1 K = find t2 K.
Proof. destruct K; [done|]. intros Heq _. simpl. by rewrite Heq. Qed.

Lemma no_dead_ends_same_children t1 t2 :
  children t1 = children t2 → no_dead_ends t1 → no_dead_ends t2.
Proof.
  intros Heq H1 K n HK Hn. apply (H1 K n HK).
  by rewrite (find_same_children t1 t2).
Qed.

Lemma no_dead_ends_Trie_default : no_dead_ends (@Trie_default T).
Proof. intros K n HK. by rewrite find_Trie_default. Qed.

Lemma no_dead_ends_child t c child :
  no_dead_ends t → children t !! c = Some child →
  ¬ dead_end child ∧ no_dead_ends child.
Proof.
  intros Ht Hc. split.
  - apply (Ht (String c "")); [done|]. simpl. by rewrite Hc.
  - intros K n HK Hn. apply (Ht (String c K)); [done|]. simpl. by rewrite Hc.
Qed.

Lemma no_dead_ends_slot t c : no_dead_ends t → no_dead_ends (slot t c).
Proof.
  intros Ht. unfold slot. destruct (children t !! c) as [child|] eqn:Hc.
  - by eapply no_dead_ends_child.
  - apply no_dead_ends_Trie_default.
Qed.

(** A node rebuilt around one replaced child keeps the invariant. *)
Lemma no_dead_ends_insert_child o chs c child :
  no_dead_ends (Node o chs) → ¬ dead_end child → no_dead_ends child →
  no_dead_ends (Node o (<[c := child]> chs)).
Proof.
  intros Ht Hd Hchild [|c2 K] n HK; [done|]. simpl.
  destruct (decide (c2 = c)) as [->|Hne].
  - rewrite lookup_insert_eq. destruct K as [|c3 K].
    + by intros [= <-].
    + by apply Hchild.
  - rewrite lookup_insert_ne by done. by apply (Ht (String c2 K)).
Qed.

Lemma no_dead_ends_delete_child o chs c :
  no_dead_ends (Node o chs) → no_dead_ends (Node o (delete c chs)).
Proof.
  intros Ht [|c2 K] n HK; [done|]. simpl.
  destruct (decide (c2 = c)) as [->|Hne].
  - by rewrite lookup_delete_eq.
  - rewrite lookup_delete_ne by done. by apply (Ht (String c2 K)).
Qed.

Lemma insert_not_dead_end t a K : ¬ dead_end (insert t (Some a) K).
Proof.
  destruct K as [|c K]; intros [Ho Hch]; [done|].
  rewrite insert_cons in Hch. simpl in Hch.
  by apply insert_non_empty in Hch.
Qed.

Lemma no_dead_ends_insert t a K :
  no_dead_ends t → no_dead_ends (insert t (Some a) K).
Proof.
  revert t. induction K as [|c K IH]; intros t Ht.
  - by apply (no_dead_ends_same_children t).
  - rewrite insert_cons. destruct t as [o chs].
    apply no_dead_ends_insert_child;
      [done|apply insert_not_dead_end|].
    by apply IH, no_dead_ends_slot.
Qed.

Lemma no_dead_ends_removeRecursive t K :
  no_dead_ends t → no_dead_ends (removeRecursive t K).2.
Proof.
  revert t. induction K as [|c K IH]; intros t Ht.
  - simpl. destruct (object t); [|done].
    by apply (no_dead_ends_same_children t).
  - rewrite removeRecursive_cons.
    destruct (children t !! c) as [child|] eqn:Hc; [|done].
    destruct (no_dead_ends_child t c child Ht Hc) as [Hd Hchild].
    destruct (removeRecursive_spec K child) as (_ & _ & Hkeep).
    specialize (IH child Hchild). destruct t as [o chs].
    destruct (removeRecursive child K) as [[] child']; simpl in *.
    + by apply no_dead_ends_delete_child.
    + apply no_dead_ends_insert_child; [done| |done].
      destruct (Hkeep eq_refl) as [->|?]; done.
Qed.

Lemma no_dead_ends_erase t K :
  no_dead_ends t → no_dead_ends ((erase t K).2).
Proof.
  intros Ht. unfold erase. destruct (wordExists t K); [|done].
  by apply no_dead_ends_removeRecursive.
Qed.

Lemma no_dead_ends_clear t : no_dead_ends (clear t).
Proof. intros K n HK. by rewrite find_clear. Qed.
End TrieFacts.

(** * The order of a range-for over the children *)

Section MapOrder.
Context {A : Type}.
Implicit Types (m : gmap ascii A) (c : ascii) (cs : bool).

Lemma all_chars_complete cs c : c ∈ all_chars cs.
Proof.
  pose proof (nat_ascii_bounded c) as Hlt.
  rewrite <-(ascii_nat_embedding c).
  unfold all_chars. destruct cs.
  - rewrite elem_of_app, !list_elem_of_fmap.
    destruct (decide (nat_of_ascii c < 128)%nat).
    + right. eexists. split; [done|]. apply elem_of_seq. lia.
    + left. eexists. split; [done|]. apply elem_of_seq. lia.
  - apply list_elem_of_fmap. eexists. split; [done|].
    apply elem_of_seq. lia.
Qed.

Lemma all_chars_sorted cs :
  StronglySorted (λ a b, char_lt cs a b = true) (all_chars cs).
Proof. destruct cs; apply (bool_decide_unpack _); by vm_compute. Qed.

Lemma elem_of_in_order cs m c x : (c, x) ∈ in_order cs m ↔ m !! c = Some x.
Proof.
  unfold in_order. rewrite list_elem_of_omap. split.
  - intros (c' & _ & Hc'). destruct (m !! c') eqn:E; by simplify_eq/=.
  - intros Hc. exists c. split; [apply all_chars_complete|by rewrite Hc].
Qed.

Lemma in_order_sorted cs m :
  StronglySorted (λ a b, char_lt cs a.1 b.1 = true) (in_order cs m).
Proof.
  unfold in_order.
  induction (all_chars_sorted cs) as [|c l Hl IH Hc]; [constructor|].
  simpl. destruct (m !! c) as [x|]; simpl; [|done].
  constructor; [done|]. apply Forall_forall. intros [c' x'].
  rewrite list_elem_of_omap. intros (c2 & Hin & Hc2).
  destruct (m !! c2); simplify_eq/=.
  by eapply Forall_forall in Hc.
Qed.

Lemma in_order_fmap {B} (f : A → B) cs m :
  in_order cs (f <$> m) = prod_map id f <$> in_order cs m.
Proof.
  unfold in_order. induction (all_chars cs) as [|c l IH]; [done|].
  csimpl. rewrite lookup_fmap.
  destruct (m !! c); csimpl; by rewrite IH.
Qed.

Lemma char_lt_irrefl cs c : char_lt cs c c = false.
Proof. unfold char_lt. lia. Qed.

(** With an unsigned [char] the order on keys is the one of [std::string],
    which the standard library has as [String.ltb]. *)
Lemma key_lt_unsigned (K1 K2 : string) : key_lt false K1 K2 = String.ltb K1 K2.
Proof.
  unfold String.ltb. revert K2.
  induction K1 as [|x K1 IH]; intros [|y K2]; simpl; try done.
  unfold char_lt, char_value, Ascii.compare. simpl.
  destruct (N.compare_spec (N_of_ascii x) (N_of_ascii y)) as [Heq|Hlt|Hgt].
  - apply (f_equal ascii_of_N) in Heq.
    rewrite !ascii_N_embedding in Heq. subst y.
    rewrite Z.ltb_irrefl, bool_decide_eq_true_2 by done. apply IH.
  - by rewrite (proj2 (Z.ltb_lt _ _)) by lia.
  - rewrite (proj2 (Z.ltb_ge _ _)) by lia.
    rewrite bool_decide_eq_false_2; [done|]. intros ->. lia.
Qed.
End MapOrder.

(** * Traversal *)

Section Traversal.
Context {T : Type}.
Implicit Types (t child n : Trie T) (o : option T) (c : ascii).
Implicit Types (chs : gmap ascii (Trie T)) (K P S : string) (cs : bool).

(** ** Induction on the tree *)

Lemma height_child o chs c child :
  chs !! c = Some child → (height child < height (Node o chs))%nat.
Proof.
  intros Hc. simpl. apply Nat.lt_succ_r, max_list_elem_of_le.
  apply list_elem_of_fmap. exists (c, height child). split; [done|].
  apply elem_of_map_to_list. by rewrite lookup_fmap, Hc.
Qed.

Lemma Trie_children_ind (Q : Trie T → Prop) :
  (∀ o chs, (∀ c child, chs !! c = Some child → Q child) → Q (Node o chs)) →
  ∀ t, Q t.
Proof.
  intros Hnode t. remember (height t) as h eqn:Hh.
  revert t Hh. induction (lt_wf h) as [h _ IH]. intros [o chs] ->.
  apply Hnode. intros c child Hc.
  by apply (IH (height child) (height_child o chs c child Hc)).
Qed.

(** ** One level of each traversal *)

Lemma traverseRecursive_Node {St} cs (f : option T → St → St) o chs s :
  traverseRecursive cs f (Node o chs) s =
  foldl (λ acc kv, traverseRecursive cs f kv.2 acc)
        (match o with Some _ => f o s | None => s end)
        (in_order cs chs).
Proof.
  simpl. rewrite in_order_fmap.
  generalize (match o with Some _ => f o s | None => s end).
  induction (in_order cs chs) as [|[c child] l IH]; intros s1; [done|].
  csimpl. apply IH.
Qed.

Lemma getAllObjects_Node cs o chs res :
  getAllObjects cs (Node o chs) res =
  foldl (λ acc kv, getAllObjects cs kv.2 acc)
        (match o with Some _ => res ++ [o] | None => res end)
        (in_order cs chs).
Proof. unfold getAllObjects. rewrite traverseRecursive_Node. by destruct o. Qed.

Lemma keys_Node cs o chs :
  keys cs (Node o chs) =
  match o with Some _ => [""] | None => [] end
  ++ (in_order cs chs ≫= λ kv, String kv.1 <$> keys cs kv.2).
Proof.
  simpl. f_equal. rewrite in_order_fmap.
  induction (in_order cs chs) as [|[c child] l IH]; [done|].
  csimpl. by rewrite IH.
Qed.

(** ** The visited objects are the objects of [keys], in that order *)

Lemma getAllObjects_keys cs t res :
  getAllObjects cs t res = res ++ (wordExists t <$> keys cs t).
Proof.
  revert res. induction t as [o chs IH] using Trie_children_ind. intros res.
  rewrite getAllObjects_Node, keys_Node, fmap_app, app_assoc.
  assert (match o with Some _ => res ++ [o] | None => res end =
          res ++ (wordExists (Node o chs) <$>
                  match o with Some _ => [""] | None => [] end)) as ->.
  { destruct o; [done|]. by rewrite app_nil_r. }
  generalize (res ++ (wordExists (Node o chs) <$>
    match o with Some _ => [""] | None => [] end)).
  assert (∀ kv, kv ∈ in_order cs chs → chs !! kv.1 = Some kv.2) as Hin.
  { intros [c child]. apply elem_of_in_order. }
  induction (in_order cs chs) as [|[c child] l IHl]; intros acc.
  { by rewrite app_nil_r. }
  csimpl. rewrite IHl by (intros; apply Hin; by right).
  pose proof (Hin (c, child) ltac:(by left)) as Hc. simpl in Hc.
  rewrite (IH c child Hc), fmap_app, app_assoc. do 2 f_equal.
  rewrite <-list_fmap_compose. apply list_fmap_ext. intros _ K _. simpl.
  by rewrite wordExists_cons; simpl; rewrite Hc.
Qed.

Lemma elem_of_keys cs t K : K ∈ keys cs t ↔ wordExists t K ≠ None.
Proof.
  revert K. induction t as [o chs IH] using Trie_children_ind. intros K.
  rewrite keys_Node, elem_of_app, list_elem_of_bind. split.
  - intros [Hown|([c child] & HK & Hin)].
    + destruct o; [|by apply elem_of_nil in Hown].
      apply list_elem_of_singleton in Hown as ->. by rewrite wordExists_nil.
    + apply elem_of_in_order in Hin. simpl in HK.
      apply list_elem_of_fmap in HK as (K' & -> & HK').
      rewrite wordExists_cons. simpl. rewrite Hin. by apply (IH c child).
  - destruct K as [|c K].
    + rewrite wordExists_nil. simpl. intros Ho. left.
      destruct o; [by left|done].
    + rewrite wordExists_cons. simpl.
      destruct (chs !! c) as [child|] eqn:Hc; [|done]. intros HK. right.
      exists (c, child). split; [|by apply elem_of_in_order].
      simpl. apply list_elem_of_fmap_2. by apply (IH c child).
Qed.

(** ** [keys] ascends *)

Lemma key_lt_cons cs c K1 K2 :
  key_lt cs (String c K1) (String c K2) = key_lt cs K1 K2.
Proof.
  simpl. by rewrite char_lt_irrefl, bool_decide_eq_true_2.
Qed.

Lemma key_lt_app cs P K1 K2 :
  key_lt cs (P +:+ K1) (P +:+ K2) = key_lt cs K1 K2.
Proof.
  induction P as [|c P IH]; [done|].
  change (String c P +:+ ?K) with (String c (P +:+ K)).
  by rewrite key_lt_cons.
Qed.

Lemma keys_sorted cs t :
  StronglySorted (λ a b, key_lt cs a b = true) (keys cs t).
Proof.
  induction t as [o chs IH] using Trie_children_ind.
  rewrite keys_Node. apply StronglySorted_app_2.
  - intros K1 K2 H1 ([c child] & H2 & _)%list_elem_of_bind.
    destruct o; [|by apply elem_of_nil in H1].
    apply list_elem_of_singleton in H1 as ->.
    by apply list_elem_of_fmap in H2 as (K' & -> & _).
  - destruct o; repeat constructor.
  - assert (∀ kv, kv ∈ in_order cs chs → chs !! kv.1 = Some kv.2) as Hin.
    { intros [c child]. apply elem_of_in_order. }
    induction (in_order_sorted cs chs) as [|[c child] l Hl IHl Hc];
      [constructor|].
    csimpl. apply StronglySorted_app_2.
    + intros K1 K2 (K1' & -> & _)%list_elem_of_fmap
        ([c2 child2] & (K2' & -> & _)%list_elem_of_fmap & Hc2)%list_elem_of_bind.
      eapply Forall_forall in Hc; [|done]. simpl in *. by rewrite Hc.
    + eapply StronglySorted_fmap; [|apply (IH c child), (Hin (c, child)); by left].
      intros K1 K2. by rewrite key_lt_cons.
    + apply IHl. intros kv Hkv. apply Hin. by right.
Qed.
End Traversal.

(** * The properties of the specification *)

Section Properties.
Context {T : Type}.
Implicit Types (t n : Trie T) (o V : option T) (a b : T) (c : ascii).
Implicit Types (chs : gmap ascii (Trie T)) (K P S : string) (cs : bool).

(** ** Helpers shared by the statements below *)

Lemma autoComplete_keys cs t P n :
  find t P = Some n →
  autoComplete cs t P = wordExists t <$> (String.app P <$> keys cs n).
Proof.
  intros Hn. unfold autoComplete. rewrite Hn, getAllObjects_keys. simpl.
  rewrite <-list_fmap_compose. apply list_fmap_ext. intros _ S _. simpl.
  by rewrite (wordExists_app t P S n).
Qed.

Lemma autoComplete_no_objects cs t P :
  (∀ K, wordExists t K = None) → autoComplete cs t P = [].
Proof.
  intros Hnone. destruct (find t P) as [n|] eqn:Hn.
  - rewrite (autoComplete_keys cs t P n Hn).
    destruct (keys cs n) as [|S l] eqn:Hk; [done|].
    assert (S ∈ keys cs n) as HS by (rewrite Hk; by left).
    apply elem_of_keys in HS. destruct HS.
    by rewrite <-(wordExists_app t P S n).
  - unfold autoComplete. by rewrite Hn.
Qed.

Lemma wordExists_run_never_inserted K (calls : list (@call T)) :
  never_inserted K calls = true → wordExists (run calls) K = None.
Proof.
  unfold run. generalize (wordExists_Trie_default (T:=T) K).
  generalize (@Trie_default T).
  induction calls as [|call calls IH]; intros t Ht Hnever; [done|].
  simpl in *. apply andb_true_iff in Hnever as [Hcall Hnever].
  apply IH; [|done].
  destruct call as [obj word|word|]; simpl.
  - apply negb_true_iff, bool_decide_eq_false in Hcall.
    rewrite wordExists_insert_ne; [done|congruence].
  - rewrite wordExists_erase. by case_decide.
  - rewrite wordExists_clear. case_decide as HK; [|done].
    subst. by rewrite <-wordExists_nil.
Qed.

Lemma wordExists_insert_null K K2 :
  wordExists (insert (@Trie_default T) None K) K2 = None.
Proof.
  destruct (decide (K2 = K)) as [->|Hne].
  - apply wordExists_insert_eq.
  - rewrite wordExists_insert_ne by done. apply wordExists_Trie_default.
Qed.

Lemma prefixExists_insert t V K : prefixExists (insert t V K) K = true.
Proof.
  unfold prefixExists.
  destruct (find_insert_prefix t V K "") as [n Hn].
  rewrite append_nil_r in Hn. by rewrite Hn.
Qed.

Lemma prefixExists_clear t P :
  prefixExists (clear t) P = bool_decide (P = "").
Proof.
  unfold prefixExists. destruct P as [|c P]; [done|].
  by rewrite find_clear.
Qed.
(** ** autoComplete *)

(** C1. [autoComplete(P)] is the empty sequence when no path spells [P].
    Otherwise it lists the objects of exactly the keys that extend [P] and
    carry a non-null object, in strictly ascending lexicographic order of
    the full key.  A node contributes its own object first and then its
    children in ascending key order.  On the tree built from "car", "cat",
    "cart" and "dog" the prefix "ca" gives the objects of "car", "cart",
    "cat" in that order, and "xy" gives nothing. *)
Theorem autoComplete_sorted_complete cs t P :
  (prefixExists t P = false → autoComplete cs t P = [])
  ∧ (∃ ks,
        StronglySorted (λ K1 K2, key_lt cs K1 K2 = true) ks
        ∧ (∀ K, K ∈ ks ↔ (∃ S, K = P +:+ S) ∧ wordExists t K ≠ None)
        ∧ autoComplete cs t P = wordExists t <$> ks)
  ∧ (∀ o chs res,
        getAllObjects cs (Node o chs) res =
        foldl (λ acc kv, getAllObjects cs kv.2 acc)
              (match o with Some _ => res ++ [o] | None => res end)
              (in_order cs chs)
        ∧ StronglySorted (λ x y, char_lt cs x.1 y.1 = true) (in_order cs chs)
        ∧ (∀ c n, (c, n) ∈ in_order cs chs ↔ chs !! c = Some n))
  ∧ (∀ a1 a2 a3 a4,
        let t0 := insert (insert (insert (insert Trie_default
                    (Some a1) "car") (Some a2) "cat") (Some a3) "cart")
                    (Some a4) "dog" in
        autoComplete cs t0 "ca" = [Some a1; Some a3; Some a2]
        ∧ autoComplete cs t0 "xy" = []).
Proof.
  split_and!.
  - unfold prefixExists, autoComplete. by destruct (find t P).
  - destruct (find t P) as [n|] eqn:Hn.
    + exists (String.app P <$> keys cs n). split_and!.
      * eapply StronglySorted_fmap; [|apply keys_sorted].
        intros K1 K2. by rewrite key_lt_app.
      * intros K. rewrite list_elem_of_fmap. split.
        -- intros (S & -> & HS). split; [by exists S|].
           rewrite (wordExists_app t P S n Hn). by apply elem_of_keys in HS.
        -- intros [[S ->] HK]. exists S. split; [done|].
           apply elem_of_keys. by rewrite <-(wordExists_app t P S n Hn).
      * by apply autoComplete_keys.
    + exists []. split_and!; [constructor| |].
      * intros K. split; [by intros ?%elem_of_nil|].
        intros [[S ->] HK]. by rewrite wordExists_app_None in HK.
      * unfold autoComplete. by rewrite Hn.
  - intros o chs res. split_and!.
    + apply getAllObjects_Node.
    + apply in_order_sorted.
    + intros c n. apply elem_of_in_order.
  - intros a1 a2 a3 a4. destruct cs; by vm_compute.
Qed.

(** ** clear *)

(** C2, where the code departs from it.  [clear] does not reset the root's
    own object: a non-null pointer inserted under the empty key into an
    empty tree is still what [wordExists("")] returns after [clear]. *)
Theorem clear_keeps_root_object a :
  wordExists (clear (insert (@Trie_default T) (Some a) "")) "" = Some a.
Proof. done. Qed.

(** What [clear] leaves behind in general: the root with the object it had
    and no children.  No key of length one or more is found, no non-empty
    prefix exists, the empty prefix does, and an empty tree stays empty. *)
Lemma clear_spec t :
  wordExists (clear t) "" = object t
  ∧ (∀ K, K ≠ "" → wordExists (clear t) K = None)
  ∧ prefixExists (clear t) "" = true
  ∧ (∀ P, P ≠ "" → prefixExists (clear t) P = false)
  ∧ clear (@Trie_default T) = Trie_default.
Proof.
  split_and!; [by rewrite wordExists_nil| |done| |done].
  - intros K HK. rewrite wordExists_clear. by case_decide.
  - intros P HP. rewrite prefixExists_clear. by apply bool_decide_eq_false.
Qed.

(** ** erase *)

(** C3. When [wordExists(K)] returns a non-null object, [erase(K)] returns
    true, [wordExists(K)] then returns null, and a second [erase(K)]
    returns false.  After any history of calls that never inserted [K],
    [erase(K)] returns false. *)
Theorem erase_found_then_gone t K :
  (wordExists t K ≠ None →
     (erase t K).1 = true
     ∧ wordExists (erase t K).2 K = None
     ∧ (erase (erase t K).2 K).1 = false)
  ∧ (∀ calls : list (@call T),
       never_inserted K calls = true → (erase (run calls) K).1 = false).
Proof.
  split.
  - intros HK.
    assert (wordExists (erase t K).2 K = None) as Hgone.
    { rewrite wordExists_erase. by case_decide. }
    split_and!; [by rewrite erase_Some|done|by rewrite erase_None].
  - intros calls Hnever.
    by rewrite erase_None by by apply wordExists_run_never_inserted.
Qed.

(** C4. A key resolves to no value when no path spells it or when the node
    at its end has a null object.  In both cases [erase] returns false and
    the tree it leaves is the tree it was given. *)
Theorem erase_absent_unchanged t K :
  (wordExists t K = None ↔
     find t K = None ∨ ∃ n, find t K = Some n ∧ object n = None)
  ∧ (wordExists t K = None → erase t K = (false, t)).
Proof.
  split; [|apply erase_None].
  rewrite wordExists_find. destruct (find t K) as [n|]; simpl.
  - split; [intros Ho; right; by exists n|].
    intros [Hn|(n' & Hn & Ho)]; [done|]. by simplify_eq.
  - split; [by left|done].
Qed.

(** ** insert *)

(** C5. After [insert(V, K)], on any tree, for any key (the empty one
    included) and any pointer [V], [wordExists(K)] returns [V]. *)
Theorem insert_then_wordExists t V K : wordExists (insert t V K) K = V.
Proof. apply wordExists_insert_eq. Qed.

(** C6. Inserting [K] with [V2] after [K] with [V1] makes [wordExists(K)]
    return [V2], hence not [V1] when the two differ; the tree is the one a
    single [insert(V2, K)] gives. *)
Theorem insert_overwrites t (V1 V2 : option T) K :
  wordExists (insert (insert t V1 K) V2 K) K = V2
  ∧ (V1 ≠ V2 → wordExists (insert (insert t V1 K) V2 K) K ≠ V1)
  ∧ insert (insert t V1 K) V2 K = insert t V2 K.
Proof.
  rewrite wordExists_insert_eq. split_and!; [done|done|apply insert_insert].
Qed.

(** C7. With "apple" and "app" inserted into an empty tree, erasing "apple"
    returns true, removes the path to "appl", and leaves "app" with its
    object.  In general [erase(K)] changes the object of no other key. *)
Theorem erase_prunes_dead_branch_only a b :
  (let t := insert (insert Trie_default (Some a) "apple") (Some b) "app" in
   (erase t "apple").1 = true
   ∧ prefixExists (erase t "apple").2 "appl" = false
   ∧ wordExists (erase t "apple").2 "app" = Some b)
  ∧ (∀ t K K2, K2 ≠ K → wordExists (erase t K).2 K2 = wordExists t K2).
Proof.
  split; [by vm_compute|].
  intros t K K2 Hne. rewrite wordExists_erase. by case_decide.
Qed.

(** ** The shape invariant *)

(** C8, as the code has it.  An empty tree has no dead end below the root,
    and [insert] of a non-null pointer, [erase] and [clear] keep it that
    way. *)
Theorem no_dead_ends_preserved t :
  no_dead_ends (@Trie_default T)
  ∧ (no_dead_ends t →
       (∀ a K, no_dead_ends (insert t (Some a) K))
       ∧ (∀ K, no_dead_ends ((erase t K).2))
       ∧ no_dead_ends (clear t)).
Proof.
  split; [apply no_dead_ends_Trie_default|]. intros Ht. split_and!.
  - intros a K. by apply no_dead_ends_insert.
  - intros K. by apply no_dead_ends_erase.
  - apply no_dead_ends_clear.
Qed.

(** ** prefixExists *)

(** C9. The empty prefix exists in every tree, the empty one included, and
    every prefix of an existing prefix exists. *)
Theorem prefixExists_downward_closed t :
  prefixExists t "" = true
  ∧ prefixExists (@Trie_default T) "" = true
  ∧ (∀ P P', (∃ S, P = P' +:+ S) →
       prefixExists t P = true → prefixExists t P' = true).
Proof.
  split_and!; [done|done|].
  intros P P' [S ->]. apply prefixExists_app.
Qed.

(** ** Null objects *)

(** C10. After [insert(nullptr, K)] on an empty tree, [wordExists(K)]
    returns null, [erase(K)] returns false and leaves the tree as it is
    (so the path to [K] is still there), [autoComplete] of any prefix of
    [K] is empty and so holds no null entry, and [prefixExists(K)] is
    true. *)
Theorem insert_null_creates_path_only cs K :
  let t := insert (@Trie_default T) None K in
  wordExists t K = None
  ∧ erase t K = (false, t)
  ∧ prefixExists (erase t K).2 K = true
  ∧ (∀ P, (∃ S, K = P +:+ S) →
       autoComplete cs t P = [] ∧ None ∉ autoComplete cs t P)
  ∧ prefixExists t K = true.
Proof.
  intros t. pose proof (wordExists_insert_null K) as Hnull.
  assert (erase t K = (false, t)) as He by apply erase_None, Hnull.
  split_and!; [apply Hnull|done| | |apply prefixExists_insert].
  - rewrite He. apply prefixExists_insert.
  - intros P _. rewrite autoComplete_no_objects by apply Hnull.
    split; [done|apply not_elem_of_nil].
Qed.
End Properties.

(** * The statements at concrete inputs *)

Lemma autoComplete_sorted_complete_witness :
  prefixExists (insert (@Trie_default nat) (Some 1%nat) "car") "xy" = false
  ∧ autoComplete false (insert Trie_default (Some 1%nat) "car") "xy" = [].
Proof.
  destruct (autoComplete_sorted_complete false
              (insert Trie_default (Some 1%nat) "car") "xy") as [Hempty _].
  split; [reflexivity|]. apply Hempty. reflexivity.
Defined.

Lemma erase_found_then_gone_witness :
  let t := insert (@Trie_default nat) (Some 100%nat) "test" in
  wordExists t "test" ≠ None
  ∧ (erase t "test").1 = true
  ∧ wordExists (erase t "test").2 "test" = None
  ∧ (erase (erase t "test").2 "test").1 = false
  ∧ never_inserted "other" [CallInsert (Some 100%nat) "test"] = true
  ∧ (erase (run [CallInsert (Some 100%nat) "test"]) "other").1 = false.
Proof.
  intros t.
  destruct (erase_found_then_gone t "test") as [Hfound _].
  destruct (erase_found_then_gone t "other") as [_ Hnever].
  assert (wordExists t "test" ≠ None) as Hex by (vm_compute; discriminate).
  destruct (Hfound Hex) as (H1 & H2 & H3).
  split_and!; [exact Hex|exact H1|exact H2|exact H3|reflexivity|].
  apply Hnever. reflexivity.
Defined.

Lemma erase_absent_unchanged_witness :
  let t := insert (@Trie_default nat) (Some 10%nat) "apple" in
  wordExists t "app" = None ∧ erase t "app" = (false, t).
Proof.
  intros t. split; [reflexivity|].
  apply (erase_absent_unchanged t "app"). reflexivity.
Defined.

Lemma insert_overwrites_witness :
  Some 1%nat ≠ Some 2%nat
  ∧ wordExists (insert (insert Trie_default (Some 1%nat) "key")
                  (Some 2%nat) "key") "key" ≠ Some 1%nat.
Proof.
  split; [discriminate|].
  apply (insert_overwrites Trie_default (Some 1%nat) (Some 2%nat) "key").
  discriminate.
Defined.

Lemma erase_prunes_dead_branch_only_witness :
  let t := insert (insert (@Trie_default nat) (Some 10%nat) "apple")
             (Some 20%nat) "app" in
  "app" ≠ "apple"
  ∧ wordExists (erase t "apple").2 "app" = wordExists t "app".
Proof.
  intros t. split; [discriminate|].
  apply (erase_prunes_dead_branch_only 10%nat 20%nat). discriminate.
Defined.

Lemma no_dead_ends_preserved_witness :
  let t := insert (@Trie_default nat) (Some 1%nat) "ab" in
  no_dead_ends t
  ∧ no_dead_ends (insert t (Some 2%nat) "ac")
  ∧ no_dead_ends ((erase t "ab").2)
  ∧ no_dead_ends (clear t).
Proof.
  intros t.
  assert (no_dead_ends t) as Ht.
  { apply (no_dead_ends_preserved (@Trie_default nat)).
    apply no_dead_ends_Trie_default. }
  destruct (no_dead_ends_preserved t) as [_ Hkeep].
  destruct (Hkeep Ht) as (Hins & Hera & Hclr).
  split_and!; [exact Ht|apply Hins|apply Hera|exact Hclr].
Defined.

Lemma prefixExists_downward_closed_witness :
  let t := insert (@Trie_default nat) (Some 1%nat) "hello" in
  (∃ S, "hello" = "he" +:+ S)
  ∧ prefixExists t "hello" = true
  ∧ prefixExists t "he" = true.
Proof.
  intros t.
  assert (∃ S, "hello" = "he" +:+ S) as Hpre by (by exists "llo").
  split_and!; [exact Hpre|reflexivity|].
  apply (prefixExists_downward_closed t) with (P := "hello");
    [exact Hpre|reflexivity].
Defined.

Lemma insert_null_creates_path_only_witness :
  (∃ S, "ab" = "a" +:+ S)
  ∧ autoComplete false (insert (@Trie_default nat) None "ab") "a" = [].
Proof.
  assert (∃ S, "ab" = "a" +:+ S) as Hpre by (by exists "b").
  split; [exact Hpre|].
  destruct (insert_null_creates_path_only (T:=nat) false "ab")
    as (_ & _ & _ & Hauto & _).
  apply (Hauto "a" Hpre).
Defined.

(** C8 as the specification words it fails: [insert(nullptr, "a")] on an
    empty tree, which has no dead end, leaves the node for "a" with no
    object and no children. *)
Lemma insert_null_leaves_dead_end :
  no_dead_ends (@Trie_default unit)
  ∧ ¬ no_dead_ends (insert (@Trie_default unit) None "a").
Proof.
  split; [apply no_dead_ends_Trie_default|].
  intros Hinv. by apply (Hinv "a" Trie_default).
Qed.

(** * Further properties of the tree *)

Section TrieLaws.
Context {T : Type}.
Implicit Types (t n child : Trie T) (o V : option T) (a b : T) (c : ascii).
Implicit Types (chs : gmap ascii (Trie T)) (K P S : string) (cs : bool).

(** ** Helpers *)


Lemma autoComplete_root cs t :
  autoComplete cs t "" = wordExists t <$> keys cs t.
Proof. unfold autoComplete. simpl. by rewrite getAllObjects_keys. Qed.


Lemma slot_same_children t1 t2 c :
  children t1 = children t2 → slot t1 c = slot t2 c.
Proof. unfold slot. by intros ->. Qed.

Lemma string_prefix_cons c1 c2 P K :
  String.prefix (String c1 P) (String c2 K) =
  bool_decide (c1 = c2) && String.prefix P K.
Proof.
  simpl. destruct (ascii_dec c1 c2) as [->|Hne].
  - by rewrite bool_decide_eq_true_2.
  - by rewrite bool_decide_eq_false_2.
Qed.

Lemma string_prefix_nil_l K : String.prefix "" K = true.
Proof. by destruct K. Qed.

Lemma prefixExists_cons t c P :
  prefixExists t (String c P) =
  match children t !! c with
  | Some child => prefixExists child P
  | None => false
  end.
Proof. unfold prefixExists. simpl. by destruct (children t !! c). Qed.

Lemma prefixExists_insert_prefix t V K P :
  prefixExists (insert t V K) P = prefixExists t P || String.prefix P K.
Proof.
  revert t P. induction K as [|c K IH]; intros t P.
  - destruct P as [|c2 P]; [done|].
    rewrite !prefixExists_cons. simpl. by rewrite orb_false_r.
  - destruct P as [|c2 P]; [done|].
    rewrite insert_cons, string_prefix_cons, !prefixExists_cons. simpl.
    destruct (decide (c2 = c)) as [->|Hne].
    + rewrite lookup_insert_eq, IH, bool_decide_eq_true_2 by done. simpl.
      unfold slot. destruct (children t !! c) as [child|]; [done|].
      destruct P as [|c3 P]; [by rewrite string_prefix_nil_l|].
      rewrite prefixExists_cons. simpl. by rewrite lookup_empty.
    + rewrite lookup_insert_ne, bool_decide_eq_false_2 by done.
      by rewrite orb_false_r.
Qed.

Lemma slot_insert_eq o chs c child : slot (Node o (<[c := child]> chs)) c = child.
Proof. unfold slot. simpl. by rewrite lookup_insert_eq. Qed.

Lemma slot_insert_ne t o c c' child :
  c ≠ c' → slot (Node o (<[c := child]> (children t))) c' = slot t c'.
Proof. intros Hne. unfold slot. simpl. by rewrite lookup_insert_ne. Qed.

Lemma insert_commute t (V1 V2 : option T) (K1 K2 : string) :
  K1 ≠ K2 →
  insert (insert t V1 K1) V2 K2 = insert (insert t V2 K2) V1 K1.
Proof.
  revert t K2. induction K1 as [|c1 K1 IH]; intros t [|c2 K2] Hne; try done.
  rewrite !insert_cons. simpl.
  destruct (decide (c1 = c2)) as [->|Hc].
  - rewrite !slot_insert_eq, !insert_insert_eq.
    by rewrite IH by congruence.
  - rewrite !slot_insert_ne by done.
    by rewrite insert_insert_ne by done.
Qed.
(** ** [erase] against [insert] *)

Lemma removeRecursive_insert t a K :
  no_dead_ends t → wordExists t K = None →
  removeRecursive (insert t (Some a) K) K =
  (bool_decide (object t = None) && bool_decide (children t = ∅), t).
Proof.
  revert t. induction K as [|c K IH]; intros [o chs] Ht HK.
  - rewrite wordExists_nil in HK. simpl in *. by subst o.
  - rewrite insert_cons, removeRecursive_cons. simpl.
    rewrite lookup_insert_eq.
    rewrite IH by (by apply no_dead_ends_slot || by rewrite wordExists_slot).
    simpl. unfold slot. simpl.
    destruct (chs !! c) as [child|] eqn:Hc; simpl.
    + destruct (no_dead_ends_child _ c child Ht Hc) as [Hd _].
      assert (bool_decide (object child = None)
              && bool_decide (children child = ∅) = false) as ->.
      { apply andb_false_iff.
        destruct (decide (object child = None)) as [Ho|Ho];
          [right|left; by apply bool_decide_eq_false].
        apply bool_decide_eq_false. intros Hch. by apply Hd. }
      rewrite insert_insert_eq, insert_id by done.
      rewrite (bool_decide_eq_false_2 (chs = ∅)), andb_false_r; [done|].
      intros ->. by rewrite lookup_empty in Hc.
    + by rewrite delete_insert_id.
Qed.

Lemma slot_Trie_default c : slot (@Trie_default T) c = Trie_default.
Proof. unfold slot. simpl. by rewrite lookup_empty. Qed.

Lemma removeRecursive_true_chain t a K :
  (removeRecursive t K).1 = true → wordExists t K = Some a →
  t = insert Trie_default (Some a) K.
Proof.
  revert t. induction K as [|c K IH]; intros [o chs].
  - rewrite wordExists_nil. simpl. intros Hflag ->. simpl in Hflag.
    by apply bool_decide_eq_true in Hflag as ->.
  - rewrite removeRecursive_cons, wordExists_cons, insert_cons. simpl.
    destruct (chs !! c) as [child|] eqn:Hc; [|done].
    destruct (removeRecursive child K) as [[] child'] eqn:Hrec;
      simpl; [|done].
    intros [Ho%bool_decide_eq_true Hch%bool_decide_eq_true]%andb_true_iff HK.
    subst o. rewrite slot_Trie_default, <-(IH child) by (by rewrite ?Hrec).
    by rewrite <-Hch, insert_delete_id.
Qed.

Lemma insert_removeRecursive t a K :
  wordExists t K = Some a → insert (removeRecursive t K).2 (Some a) K = t.
Proof.
  revert t. induction K as [|c K IH]; intros [o chs].
  - rewrite wordExists_nil. simpl. by intros ->.
  - rewrite removeRecursive_cons, wordExists_cons. simpl.
    destruct (chs !! c) as [child|] eqn:Hc; [|done]. intros HK.
    destruct (removeRecursive child K) as [[] child'] eqn:Hrec; simpl.
    + unfold slot. simpl.
      rewrite lookup_delete_eq, insert_delete_eq.
      rewrite <-(removeRecursive_true_chain child a K)
        by (by rewrite ?Hrec).
      by rewrite insert_id.
    + rewrite slot_insert_eq.
      specialize (IH child HK). rewrite Hrec in IH. simpl in IH.
      by rewrite IH, insert_insert_eq, insert_id.
Qed.

(** ** Existing prefixes and stored words *)

Lemma no_dead_ends_find t P n :
  no_dead_ends t → find t P = Some n → no_dead_ends n.
Proof.
  intros Ht Hn path n' Hpath Hn'. apply (Ht (P +:+ path) n').
  - destruct P; [done|]. done.
  - by rewrite find_app, Hn.
Qed.

Lemma live_node_has_word n :
  ¬ dead_end n → no_dead_ends n → ∃ K, wordExists n K ≠ None.
Proof.
  induction n as [o chs IH] using Trie_children_ind. intros Hd Hn.
  destruct o as [a|]; [by exists ""|].
  destruct (map_choose_or_empty chs) as [(c & child & Hc)| ->];
    [|by destruct Hd].
  destruct (no_dead_ends_child _ c child Hn Hc) as [Hdc Hnc].
  destruct (IH c child Hc Hdc Hnc) as [K HK].
  exists (String c K). by rewrite wordExists_cons; simpl; rewrite Hc.
Qed.

Lemma prefixExists_word t P :
  no_dead_ends t → P ≠ "" →
  prefixExists t P = true ↔ ∃ S, wordExists t (P +:+ S) ≠ None.
Proof.
  intros Ht HP. split.
  - unfold prefixExists. destruct (find t P) as [n|] eqn:Hn; [|done].
    intros _.
    destruct (live_node_has_word n) as [S HS].
    + by apply (Ht P).
    + by eapply no_dead_ends_find.
    + exists S. by rewrite (wordExists_app t P S n).
  - intros [S HS]. apply (prefixExists_app t P S).
    unfold prefixExists. rewrite wordExists_find in HS.
    by destruct (find t (P +:+ S)).
Qed.

(** ** The shape is a function of the content *)

Lemma no_dead_ends_ext t1 t2 :
  no_dead_ends t1 → no_dead_ends t2 →
  (∀ K, wordExists t1 K = wordExists t2 K) → t1 = t2.
Proof.
  revert t2. induction t1 as [o1 chs1 IH] using Trie_children_ind.
  intros [o2 chs2] H1 H2 Heq.
  assert (∀ (ta tb : Trie T) c child,
            no_dead_ends ta →
            (∀ K, wordExists ta K = wordExists tb K) →
            children ta !! c = Some child → is_Some (children tb !! c))
    as Hboth.
  { intros ta tb c child Ha Hab Hc.
    destruct (no_dead_ends_child ta c child Ha Hc) as [Hd Hn].
    destruct (live_node_has_word child Hd Hn) as [K HK].
    specialize (Hab (String c K)). rewrite !wordExists_cons, Hc in Hab.
    destruct (children tb !! c); [done|congruence]. }
  f_equal.
  - specialize (Heq ""). by rewrite !wordExists_nil in Heq.
  - apply map_eq. intros c.
    destruct (chs1 !! c) as [child1|] eqn:Hc1.
    + destruct (Hboth _ (Node o2 chs2) c child1 H1 Heq Hc1) as [child2 Hc2].
      simpl in Hc2. rewrite Hc2. f_equal. apply (IH c child1 Hc1).
      * by eapply (no_dead_ends_child (Node o1 chs1)).
      * by eapply (no_dead_ends_child (Node o2 chs2)).
      * intros K. specialize (Heq (String c K)).
        by rewrite !wordExists_cons in Heq; simpl in Heq;
          rewrite Hc1, Hc2 in Heq.
    + destruct (chs2 !! c) as [child2|] eqn:Hc2; [|done].
      destruct (Hboth (Node o2 chs2) (Node o1 chs1) c child2 H2) as [x Hx];
        [done|done|]. simpl in Hx. congruence.
Qed.
(** ** Counting the stored words *)

Lemma key_lt_irrefl cs K : key_lt cs K K = false.
Proof.
  induction K as [|c K IH]; [done|]. by rewrite key_lt_cons.
Qed.

Lemma keys_NoDup cs t : NoDup (keys cs t).
Proof.
  induction (keys_sorted cs t) as [|K l _ IH HK]; constructor; [|done].
  intros Hin. eapply Forall_forall in HK; [|done].
  by rewrite key_lt_irrefl in HK.
Qed.

Lemma length_autoComplete_root cs t :
  List.length (autoComplete cs t "") = List.length (keys cs t).
Proof. by rewrite autoComplete_root, length_fmap. Qed.

Lemma keys_insert_fresh cs t a K :
  wordExists t K = None → keys cs (insert t (Some a) K) ≡ₚ K :: keys cs t.
Proof.
  intros HK. apply NoDup_Permutation.
  - apply keys_NoDup.
  - constructor; [|apply keys_NoDup]. rewrite elem_of_keys. naive_solver.
  - intros K2. rewrite elem_of_cons, !elem_of_keys.
    destruct (decide (K2 = K)) as [->|Hne].
    + rewrite wordExists_insert_eq. split; [by left|done].
    + rewrite wordExists_insert_ne by done. split; [by right|by intros [|]].
Qed.

Lemma keys_insert_present cs t a K :
  wordExists t K ≠ None → keys cs (insert t (Some a) K) ≡ₚ keys cs t.
Proof.
  intros HK. apply NoDup_Permutation; [apply keys_NoDup..|].
  intros K2. rewrite !elem_of_keys.
  destruct (decide (K2 = K)) as [->|Hne].
  - by rewrite wordExists_insert_eq.
  - by rewrite wordExists_insert_ne.
Qed.

Lemma keys_erase_present cs t K :
  wordExists t K ≠ None → keys cs t ≡ₚ K :: keys cs (erase t K).2.
Proof.
  intros HK. apply NoDup_Permutation.
  - apply keys_NoDup.
  - constructor; [|apply keys_NoDup].
    rewrite elem_of_keys, wordExists_erase. case_decide; naive_solver.
  - intros K2. rewrite elem_of_cons, !elem_of_keys, wordExists_erase.
    case_decide as HK2; [subst; split; [by left|done]|].
    split; [by right|by intros [|]].
Qed.

(** ** Narrowing the prefix *)

Lemma sublist_bind_elem {A B} (f : A → list B) (x : A) (l : list A) :
  x ∈ l → f x `sublist_of` (l ≫= f).
Proof.
  induction 1 as [x l|x y l _ IH]; csimpl.
  - by apply sublist_inserts_r.
  - by apply sublist_inserts_l.
Qed.

Lemma getAllObjects_child_sublist cs o chs c child :
  chs !! c = Some child →
  getAllObjects cs child [] `sublist_of` getAllObjects cs (Node o chs) [].
Proof.
  intros Hc. rewrite !getAllObjects_keys, keys_Node, fmap_app. simpl.
  apply sublist_inserts_l.
  assert (wordExists child <$> keys cs child =
          wordExists (Node o chs) <$> (String c <$> keys cs child)) as ->.
  { rewrite <-list_fmap_compose. apply list_fmap_ext. intros _ K _. simpl.
    by rewrite wordExists_cons; simpl; rewrite Hc. }
  apply fmap_sublist.
  apply (sublist_bind_elem (λ kv, String kv.1 <$> keys cs kv.2) (c, child)).
  by apply elem_of_in_order.
Qed.

Lemma getAllObjects_find_sublist cs n S n' :
  find n S = Some n' →
  getAllObjects cs n' [] `sublist_of` getAllObjects cs n [].
Proof.
  revert n. induction S as [|c S IH]; intros [o chs]; simpl.
  - by intros [= <-].
  - destruct (chs !! c) as [child|] eqn:Hc; [|done]. intros Hn'.
    etrans; [by apply IH|by apply (getAllObjects_child_sublist cs o chs c)].
Qed.
End TrieLaws.

(** * The loop of readValidatedInput *)

Section InputFacts.
Context {T : Type} (parse : string → option T).
Implicit Types (validator : option (T → bool)) (value : T) (io : console).
Implicit Types (line ps ei em fm out err : string) (lines : list string).

Lemma string_app_assoc (x y z : string) : (x +:+ y) +:+ z = x +:+ y +:+ z.
Proof.
  induction x as [|c x IH]; [done|].
  change ((String c x +:+ y) +:+ z) with (String c ((x +:+ y) +:+ z)).
  change (String c x +:+ y +:+ z) with (String c (x +:+ y +:+ z)).
  by rewrite IH.
Qed.

Lemma accepted_Some validator line value :
  accepted parse validator line = Some value ↔
  parse line = Some value ∧ passes validator value = true.
Proof.
  unfold accepted. destruct (parse line) as [v|]; [|by split; [|intros []]].
  destruct (passes validator v) eqn:Hv; split; try done.
  - by intros [= ->].
  - by intros [[= ->] _].
  - intros [[= ->] Hp]. congruence.
Qed.

Lemma turn_accepted ps ei validator em fm line lines out err value :
  accepted parse validator line = Some value →
  turn parse ps ei validator em fm (Console (line :: lines) out err) =
  (Console lines (out +:+ ps) err, Some value).
Proof.
  intros [Hp Hv]%accepted_Some. unfold turn. simpl. by rewrite Hp, Hv.
Qed.

Lemma turn_rejected ps ei validator em fm line lines out err :
  accepted parse validator line = None →
  turn parse ps ei validator em fm (Console (line :: lines) out err) =
  (Console lines (out +:+ rejection parse ps ei em fm line) err, None).
Proof.
  unfold accepted, turn, rejection. simpl. intros Hrej.
  rewrite !string_app_assoc.
  destruct (parse line) as [v|]; [|done].
  by destruct (passes validator v).
Qed.

Lemma input_loop_first_accepted ps ei validator em fm
    rejected line lines value fuel out err :
  Forall (λ l, accepted parse validator l = None) rejected →
  accepted parse validator line = Some value →
  (List.length rejected < fuel)%nat →
  input_loop parse fuel ps ei validator em fm
    (Console (rejected ++ line :: lines) out err) =
  Some (value,
        Console lines
          (out +:+ foldr String.app ps (rejection parse ps ei em fm <$> rejected))
          err).
Proof.
  intros Hrej Hacc. revert fuel out.
  induction Hrej as [|l rejected Hl _ IH]; intros [|fuel] out Hfuel;
    simpl in Hfuel; try lia.
  - simpl input_loop. by rewrite (turn_accepted _ _ _ _ _ _ _ _ _ value).
  - simpl app. simpl input_loop. rewrite turn_rejected by done.
    rewrite IH by lia. csimpl. by rewrite string_app_assoc.
Qed.

Lemma input_loop_exhausted ps ei validator em fm fuel out err :
  input_loop parse fuel ps ei validator em fm (Console [] out err) = None.
Proof.
  revert out err. induction fuel as [|fuel IH]; intros out err; [done|].
  simpl. apply IH.
Qed.

Lemma input_loop_all_rejected ps ei validator em fm lines fuel out err :
  Forall (λ l, accepted parse validator l = None) lines →
  input_loop parse fuel ps ei validator em fm (Console lines out err) = None.
Proof.
  intros Hrej. revert fuel out.
  induction Hrej as [|l lines Hl _ IH]; intros fuel out.
  - apply input_loop_exhausted.
  - destruct fuel as [|fuel]; [done|].
    simpl input_loop. rewrite turn_rejected by done. apply IH.
Qed.

Lemma input_loop_result ps ei validator em fm fuel io value io' :
  input_loop parse fuel ps ei validator em fm io = Some (value, io') →
  ∃ line, line ∈ cin io ∧ accepted parse validator line = Some value.
Proof.
  revert io. induction fuel as [|fuel IH]; intros [lines out err]; [done|].
  destruct lines as [|line lines].
  { simpl. by rewrite input_loop_exhausted. }
  simpl input_loop.
  destruct (accepted parse validator line) as [v|] eqn:Hacc.
  - rewrite (turn_accepted _ _ _ _ _ _ _ _ _ v) by done.
    intros [= -> _]. exists line. split; [by left|done].
  - rewrite turn_rejected by done. intros (l & Hl & Hv)%IH.
    exists l. split; [by right|done].
Qed.
End InputFacts.

(** * Further properties, stated *)

Section TrieTheorems.
Context {T : Type}.
Implicit Types (t n : Trie T) (o V : option T) (a b : T) (c : ascii).
Implicit Types (chs : gmap ascii (Trie T)) (K P S : string) (cs : bool).


(** X2. [insert(V, K)] changes what [wordExists] returns for no key other
    than [K]. *)
Theorem insert_keeps_other_words t V K K2 :
  K2 ≠ K → wordExists (insert t V K) K2 = wordExists t K2.
Proof. apply wordExists_insert_ne. Qed.

(** X3. After [insert(V, K)] the prefixes that exist are those that
    existed before and the prefixes of [K], whatever [V] is. *)
Theorem prefixExists_after_insert t V K P :
  prefixExists (insert t V K) P = prefixExists t P || String.prefix P K.
Proof. apply prefixExists_insert_prefix. Qed.

(** X4. Two inserts under different keys give the same tree in either
    order. *)
Theorem insert_order_irrelevant t (V1 V2 : option T) (K1 K2 : string) :
  K1 ≠ K2 →
  insert (insert t V1 K1) V2 K2 = insert (insert t V2 K2) V1 K1.
Proof. apply insert_commute. Qed.

(** X5. On a tree without dead ends, inserting a non-null pointer under a
    key that has no value and erasing that key again returns true and
    gives back the tree as it was, nodes included. *)
Theorem erase_undoes_insert t a K :
  no_dead_ends t → wordExists t K = None →
  erase (insert t (Some a) K) K = (true, t).
Proof.
  intros Ht HK. rewrite erase_Some by by rewrite wordExists_insert_eq.
  by rewrite removeRecursive_insert.
Qed.

(** X6. Erasing a key and inserting it again with the pointer it had
    gives back the tree as it was: the nodes that [erase] pruned are the
    ones [insert] creates. *)
Theorem insert_undoes_erase t a K :
  wordExists t K = Some a → insert (erase t K).2 (Some a) K = t.
Proof.
  intros HK. rewrite erase_Some by congruence.
  by apply insert_removeRecursive.
Qed.

(** X7. On a tree without dead ends a non-empty prefix exists exactly
    when some stored word starts with it. *)
Theorem prefixExists_iff_word_below t P :
  no_dead_ends t → P ≠ "" →
  prefixExists t P = true ↔ ∃ S, wordExists t (P +:+ S) ≠ None.
Proof. apply prefixExists_word. Qed.

(** X8. On a tree without dead ends, after [erase(K)] a non-empty prefix
    exists exactly when a stored word other than [K] starts with it:
    pruning removes every node that only [K] needed and no other. *)
Theorem erase_prunes_exactly t K P :
  no_dead_ends t → P ≠ "" →
  prefixExists (erase t K).2 P = true ↔
  ∃ S, P +:+ S ≠ K ∧ wordExists t (P +:+ S) ≠ None.
Proof.
  intros Ht HP.
  rewrite prefixExists_word by (done || by apply no_dead_ends_erase).
  split; intros [S HS]; exists S.
  - rewrite wordExists_erase in HS. by case_decide.
  - rewrite wordExists_erase. by case_decide; destruct HS.
Qed.

(** X9. The number of pointers [autoComplete("")] returns is the number of
    stored words: inserting a non-null pointer adds one when the key had
    no value and none when it had, and erasing a key that has a value
    removes one. *)
Theorem stored_word_count cs t a K :
  List.length (autoComplete cs (insert t (Some a) K) "") =
    match wordExists t K with
    | None => S (List.length (autoComplete cs t ""))
    | Some _ => List.length (autoComplete cs t "")
    end
  ∧ List.length (autoComplete cs t "") =
    match wordExists t K with
    | None => List.length (autoComplete cs (erase t K).2 "")
    | Some _ => S (List.length (autoComplete cs (erase t K).2 ""))
    end.
Proof.
  rewrite !length_autoComplete_root.
  destruct (wordExists t K) as [b|] eqn:HK; split.
  - by rewrite keys_insert_present by congruence.
  - by rewrite (keys_erase_present cs t K) at 1 by congruence.
  - by rewrite keys_insert_fresh.
  - by rewrite erase_None.
Qed.

(** X10. Extending the prefix narrows the result: what [autoComplete]
    returns for [P] followed by [S] is a subsequence, in the same order,
    of what it returns for [P]. *)
Theorem autoComplete_narrows cs t P S :
  autoComplete cs t (P +:+ S) `sublist_of` autoComplete cs t P.
Proof.
  unfold autoComplete. rewrite find_app.
  destruct (find t P) as [n|]; simpl; [|done].
  destruct (find n S) as [n'|] eqn:Hn'; [|apply sublist_nil_l].
  by apply (getAllObjects_find_sublist cs n S).
Qed.

(** X11. When the word has a value, [removeRecursive] returns true exactly
    when the node it leaves has neither object nor children, and that
    node is then an empty one. *)
Theorem removeRecursive_flag_iff_empty t K :
  wordExists t K ≠ None →
  ((removeRecursive t K).1 = true ↔ dead_end (removeRecursive t K).2)
  ∧ ((removeRecursive t K).1 = true →
     (removeRecursive t K).2 = Trie_default).
Proof.
  intros HK. destruct (removeRecursive_spec K t) as (Hw & Hdel & Hkeep).
  split; [|done]. split.
  - intros ->%Hdel. done.
  - intros Hd. destruct (removeRecursive t K).1 eqn:Hflag; [done|].
    destruct (Hkeep eq_refl) as [Heq|Hnd]; [|done].
    specialize (Hw K). rewrite Heq in Hw. by case_decide.
Qed.

(** X12. Two trees without dead ends that return the same pointer for
    every word are the same tree. *)
Theorem content_determines_tree t1 t2 :
  no_dead_ends t1 → no_dead_ends t2 →
  (∀ K, wordExists t1 K = wordExists t2 K) → t1 = t2.
Proof. apply no_dead_ends_ext. Qed.

(** X13. On a tree without dead ends two erases give the same tree in
    either order, and erasing one key does not change what [erase]
    returns for another. *)
Theorem erase_order_irrelevant t (K1 K2 : string) :
  no_dead_ends t →
  (erase (erase t K1).2 K2).2 = (erase (erase t K2).2 K1).2
  ∧ (K1 ≠ K2 → (erase (erase t K1).2 K2).1 = (erase t K2).1).
Proof.
  intros Ht. split.
  - apply no_dead_ends_ext; [by do 2 apply no_dead_ends_erase..|].
    intros K. rewrite !wordExists_erase. by repeat case_decide.
  - intros Hne. unfold erase at 1 3.
    rewrite wordExists_erase. case_decide; [congruence|].
    by destruct (wordExists t K2).
Qed.

(** X18. A tree reached from the empty one by [insert], [erase] and
    [clear] answers [wordExists] as the finite map of its history does,
    and [erase] returns true exactly for the words that map holds. *)
Theorem trie_refines_map (calls : list (@call T)) K :
  wordExists (run calls) K = model calls !! K
  ∧ (erase (run calls) K).1 = bool_decide (is_Some (model calls !! K)).
Proof.
  assert (∀ K', wordExists (run calls) K' = model calls !! K') as Href.
  { unfold run, model.
    assert (∀ K', wordExists (@Trie_default T) K' = (∅ : gmap string T) !! K')
      as Hinit by (intros K'; by rewrite wordExists_Trie_default, lookup_empty).
    revert Hinit. generalize (∅ : gmap string T). generalize (@Trie_default T).
    induction calls as [|call calls IH]; intros t m Htm K'; [done|].
    simpl. apply IH. clear K'. intros K'.
    destruct call as [[a|] word|word|]; simpl.
    - destruct (decide (K' = word)) as [->|Hne].
      + by rewrite wordExists_insert_eq, lookup_insert_eq.
      + by rewrite wordExists_insert_ne, lookup_insert_ne.
    - destruct (decide (K' = word)) as [->|Hne].
      + by rewrite wordExists_insert_eq, lookup_delete_eq.
      + by rewrite wordExists_insert_ne, lookup_delete_ne.
    - rewrite wordExists_erase. case_decide as HK'.
      + subst. by rewrite lookup_delete_eq.
      + by rewrite lookup_delete_ne.
    - rewrite wordExists_clear, <-wordExists_nil, Htm.
      case_decide as HK'.
      + subst. destruct (m !! "") as [a|] eqn:Hm; [|done].
        by rewrite lookup_singleton_eq.
      + destruct (m !! "") as [a|] eqn:Hm; [|done].
        by rewrite lookup_singleton_ne. }
  split; [done|]. unfold erase. rewrite Href.
  by destruct (model calls !! K).
Qed.

(** X19. A tree reached from the empty one by calls none of which inserts
    a null pointer has no dead end below the root. *)
Theorem run_no_dead_ends (calls : list (@call T)) :
  null_free calls = true → no_dead_ends (run calls).
Proof.
  unfold run. generalize (@no_dead_ends_Trie_default T).
  generalize (@Trie_default T).
  induction calls as [|call calls IH]; intros t Ht Hfree; [done|].
  simpl in *. apply andb_true_iff in Hfree as [Hcall Hfree].
  apply IH; [|done].
  destruct call as [[a|] word|word|]; simpl; [|done| |].
  - by apply no_dead_ends_insert.
  - by apply no_dead_ends_erase.
  - apply no_dead_ends_clear.
Qed.

(** X14. The [autoComplete] of include/Trie.hpp appends to the vector it
    is given: the entries already there stay in front, followed by what
    [Sefn::Trie::autoComplete] returns; for a prefix that does not exist
    the vector is left as it was. *)
Theorem GlobalTrie_autoComplete_appends cs t P (results : list (option T)) :
  GlobalTrie.autoComplete cs t P results = results ++ autoComplete cs t P
  ∧ (prefixExists t P = false →
     GlobalTrie.autoComplete cs t P results = results).
Proof.
  unfold GlobalTrie.autoComplete, autoComplete, prefixExists.
  destruct (find t P) as [n|]; split; try done.
  - by rewrite !getAllObjects_keys.
  - by rewrite app_nil_r.
Qed.
End TrieTheorems.

Section InputTheorems.
Context {T : Type} (parse : string → option T).
Implicit Types (validator : option (T → bool)) (value : T) (io : console).

(** X15. When the lines still to be read start with lines that do not
    parse or do not pass the validator, followed by one that does, the
    call returns the value of that line once the loop has had a turn for
    each of them.  It has then consumed exactly those lines, has written
    to [std::cout] the prompt and the indented message for each rejected
    line (the format message when the line does not parse, the error
    message when the validator refuses it) and the prompt once more, and
    has written nothing to [std::cerr]. *)
Theorem readValidatedInput_first_accepted
    (prompt : string) (indentTabs : nat) validator
    (errorMessage formatErrorMessage : string)
    (rejected : list string) (line : string) (rest : list string) value
    (fuel : nat) (out err : string) :
  Forall (λ l, accepted parse validator l = None) rejected →
  accepted parse validator line = Some value →
  (List.length rejected < fuel)%nat →
  let indentStr := fill indentTabs "009"%char in
  let promptStr := indentStr +:+ prompt in
  let errorIndent := indentStr +:+ String "009"%char "" in
  readValidatedInput parse fuel prompt indentTabs validator
    errorMessage formatErrorMessage
    (Console (rejected ++ line :: rest) out err) =
  Some (value,
        Console rest
          (out +:+ foldr String.app promptStr
                     (rejection parse promptStr errorIndent
                        errorMessage formatErrorMessage <$> rejected))
          err).
Proof.
  intros Hrej Hacc Hfuel. simpl. unfold readValidatedInput.
  by apply input_loop_first_accepted.
Qed.

(** X16. Whatever the call returns was read from one of the lines of the
    input, as the value of the whole line, and passes the validator. *)
Theorem readValidatedInput_result_valid
    (fuel : nat) (prompt : string) (indentTabs : nat) validator
    (errorMessage formatErrorMessage : string) io value io' :
  readValidatedInput parse fuel prompt indentTabs validator
    errorMessage formatErrorMessage io = Some (value, io') →
  (∃ line, line ∈ cin io ∧ parse line = Some value)
  ∧ passes validator value = true.
Proof.
  unfold readValidatedInput.
  intros (line & Hin & [Hp Hv]%accepted_Some)%input_loop_result.
  split; [by exists line|done].
Qed.

(** X17. When no line left in the input parses and passes the validator,
    the loop is never left, however many turns it is given: at the end of
    the input [getline] fails, and the loop goes round again. *)
Theorem readValidatedInput_starved
    (prompt : string) (indentTabs : nat) validator
    (errorMessage formatErrorMessage : string) io :
  Forall (λ l, accepted parse validator l = None) (cin io) →
  ∀ fuel, readValidatedInput parse fuel prompt indentTabs validator
            errorMessage formatErrorMessage io = None.
Proof.
  intros Hrej fuel. unfold readValidatedInput. destruct io as [lines out err].
  by apply input_loop_all_rejected.
Qed.
End InputTheorems.

(** * The further properties at concrete inputs *)

Lemma insert_keeps_other_words_witness :
  let t := insert (@Trie_default nat) (Some 10%nat) "apple" in
  "apple" ≠ "app"
  ∧ wordExists (insert t (Some 20%nat) "app") "apple" = wordExists t "apple".
Proof.
  intros t. split; [discriminate|].
  apply (insert_keeps_other_words t (Some 20%nat) "app" "apple").
  discriminate.
Defined.

Lemma insert_order_irrelevant_witness :
  let t := @Trie_default nat in
  "car" ≠ "cat"
  ∧ insert (insert t (Some 1%nat) "car") (Some 2%nat) "cat" =
    insert (insert t (Some 2%nat) "cat") (Some 1%nat) "car".
Proof.
  intros t. split; [discriminate|].
  apply (insert_order_irrelevant t (Some 1%nat) (Some 2%nat) "car" "cat").
  discriminate.
Defined.

Lemma erase_undoes_insert_witness :
  let t := insert (@Trie_default nat) (Some 20%nat) "app" in
  no_dead_ends t
  ∧ wordExists t "apple" = None
  ∧ erase (insert t (Some 10%nat) "apple") "apple" = (true, t).
Proof.
  intros t.
  assert (no_dead_ends t) as Ht
    by apply no_dead_ends_insert, no_dead_ends_Trie_default.
  split_and!; [exact Ht|reflexivity|].
  apply (erase_undoes_insert t 10%nat "apple" Ht). reflexivity.
Defined.

Lemma insert_undoes_erase_witness :
  let t := insert (insert (@Trie_default nat) (Some 20%nat) "app")
             (Some 10%nat) "apple" in
  wordExists t "apple" = Some 10%nat
  ∧ insert (erase t "apple").2 (Some 10%nat) "apple" = t.
Proof.
  intros t. split; [reflexivity|].
  apply (insert_undoes_erase t 10%nat "apple"). reflexivity.
Defined.

Lemma prefixExists_iff_word_below_witness :
  let t := insert (@Trie_default nat) (Some 1%nat) "hello" in
  no_dead_ends t
  ∧ "he" ≠ ""
  ∧ (prefixExists t "he" = true ↔ ∃ S, wordExists t ("he" +:+ S) ≠ None).
Proof.
  intros t.
  assert (no_dead_ends t) as Ht
    by apply no_dead_ends_insert, no_dead_ends_Trie_default.
  split_and!; [exact Ht|discriminate|].
  apply (prefixExists_iff_word_below t "he" Ht). discriminate.
Defined.

Lemma erase_prunes_exactly_witness :
  let t := insert (insert (@Trie_default nat) (Some 20%nat) "app")
             (Some 10%nat) "apple" in
  no_dead_ends t
  ∧ "appl" ≠ ""
  ∧ (prefixExists (erase t "apple").2 "appl" = true ↔
     ∃ S, "appl" +:+ S ≠ "apple" ∧ wordExists t ("appl" +:+ S) ≠ None).
Proof.
  intros t.
  assert (no_dead_ends t) as Ht
    by (do 2 apply no_dead_ends_insert; apply no_dead_ends_Trie_default).
  split_and!; [exact Ht|discriminate|].
  apply (erase_prunes_exactly t "apple" "appl" Ht). discriminate.
Defined.

Lemma removeRecursive_flag_iff_empty_witness :
  let t := insert (@Trie_default nat) (Some 100%nat) "test" in
  wordExists t "test" ≠ None
  ∧ (removeRecursive t "test").1 = true
  ∧ (removeRecursive t "test").2 = Trie_default.
Proof.
  intros t.
  assert (wordExists t "test" ≠ None) as HK by (vm_compute; discriminate).
  destruct (removeRecursive_flag_iff_empty t "test" HK) as [_ Hempty].
  split_and!; [exact HK|reflexivity|apply Hempty; reflexivity].
Defined.

Lemma content_determines_tree_witness :
  let t1 := (erase (insert (insert (@Trie_default nat) (Some 1%nat) "a")
                      (Some 2%nat) "ab") "ab").2 in
  let t2 := insert (@Trie_default nat) (Some 1%nat) "a" in
  no_dead_ends t1
  ∧ no_dead_ends t2
  ∧ (∀ K, wordExists t1 K = wordExists t2 K)
  ∧ t1 = t2.
Proof.
  intros t1 t2.
  assert (no_dead_ends t2) as H2
    by apply no_dead_ends_insert, no_dead_ends_Trie_default.
  assert (no_dead_ends t1) as H1.
  { apply no_dead_ends_erase.
    do 2 apply no_dead_ends_insert. apply no_dead_ends_Trie_default. }
  assert (∀ K, wordExists t1 K = wordExists t2 K) as Heq
    by (intros K; vm_compute; reflexivity).
  split_and!; [exact H1|exact H2|exact Heq|].
  exact (content_determines_tree t1 t2 H1 H2 Heq).
Defined.

Lemma erase_order_irrelevant_witness :
  let t := insert (insert (@Trie_default nat) (Some 1%nat) "car")
             (Some 2%nat) "cat" in
  no_dead_ends t
  ∧ (erase (erase t "car").2 "cat").2 = (erase (erase t "cat").2 "car").2
  ∧ "car" ≠ "cat"
  ∧ (erase (erase t "car").2 "cat").1 = (erase t "cat").1.
Proof.
  intros t.
  assert (no_dead_ends t) as Ht
    by (do 2 apply no_dead_ends_insert; apply no_dead_ends_Trie_default).
  destruct (erase_order_irrelevant t "car" "cat" Ht) as [Htree Hflag].
  split_and!; [exact Ht|exact Htree|discriminate|].
  apply Hflag. discriminate.
Defined.

Lemma GlobalTrie_autoComplete_appends_witness :
  let t := insert (@Trie_default nat) (Some 1%nat) "car" in
  prefixExists t "xy" = false
  ∧ GlobalTrie.autoComplete false t "xy" [Some 7%nat] = [Some 7%nat].
Proof.
  intros t.
  destruct (GlobalTrie_autoComplete_appends false t "xy" [Some 7%nat])
    as [_ Hmissing].
  split; [reflexivity|]. apply Hmissing. reflexivity.
Defined.

Lemma readValidatedInput_first_accepted_witness :
  let parse := λ l : string,
    if bool_decide (l = "10") then Some 10%nat
    else if bool_decide (l = "20") then Some 20%nat else None in
  let validator := Some (λ v : nat, Nat.leb 18 v) in
  Forall (λ l, accepted parse validator l = None) ["abc"; "10"]
  ∧ accepted parse validator "20" = Some 20%nat
  ∧ (List.length ["abc"; "10"] < 3)%nat
  ∧ ∃ out,
      readValidatedInput parse 3 "Enter Age: " 0 validator
        "Too young!" "Bad Format!"
        (Console (["abc"; "10"] ++ "20" :: ["30"]) "" "") =
      Some (20%nat, Console ["30"] out "").
Proof.
  intros parse validator.
  assert (Forall (λ l, accepted parse validator l = None) ["abc"; "10"])
    as Hrej by (repeat constructor).
  assert (List.length ["abc"; "10"] < 3)%nat as Hfuel by (simpl; lia).
  split_and!; [exact Hrej|reflexivity|exact Hfuel|].
  eexists.
  apply (readValidatedInput_first_accepted parse "Enter Age: " 0 validator
           "Too young!" "Bad Format!" ["abc"; "10"] "20" ["30"] 20%nat 3
           "" "" Hrej eq_refl Hfuel).
Defined.

Lemma readValidatedInput_result_valid_witness :
  let parse := λ l : string,
    if bool_decide (l = "10") then Some 10%nat
    else if bool_decide (l = "20") then Some 20%nat else None in
  let validator := Some (λ v : nat, Nat.leb 18 v) in
  let io := Console ["10"; "20"] "" "" in
  (∃ io', readValidatedInput parse 2 "Enter Age: " 0 validator
            "Too young!" "Bad Format!" io = Some (20%nat, io'))
  ∧ (∃ line, line ∈ cin io ∧ parse line = Some 20%nat)
  ∧ passes validator 20%nat = true.
Proof.
  intros parse validator io.
  assert (∃ io', readValidatedInput parse 2 "Enter Age: " 0 validator
            "Too young!" "Bad Format!" io = Some (20%nat, io')) as Hrun
    by (eexists; vm_compute; reflexivity).
  split; [exact Hrun|]. destruct Hrun as [io' Hrun].
  exact (readValidatedInput_result_valid parse 2 "Enter Age: " 0 validator
           "Too young!" "Bad Format!" io 20%nat io' Hrun).
Defined.

Lemma readValidatedInput_starved_witness :
  let parse := λ l : string,
    if bool_decide (l = "10") then Some 10%nat
    else if bool_decide (l = "20") then Some 20%nat else None in
  let validator := Some (λ v : nat, Nat.leb 18 v) in
  let io := Console ["abc"; "10"] "" "" in
  Forall (λ l, accepted parse validator l = None) (cin io)
  ∧ ∀ fuel, readValidatedInput parse fuel "Enter Age: " 0 validator
              "Too young!" "Bad Format!" io = None.
Proof.
  intros parse validator io.
  assert (Forall (λ l, accepted parse validator l = None) (cin io))
    as Hrej by (repeat constructor).
  split; [exact Hrej|].
  exact (readValidatedInput_starved parse "Enter Age: " 0 validator
           "Too young!" "Bad Format!" io Hrej).
Defined.

Lemma run_no_dead_ends_witness :
  let calls := [CallInsert (Some 1%nat) "apple"; CallInsert (Some 2%nat) "app";
                CallErase "apple"; CallClear] in
  null_free calls = true ∧ no_dead_ends (run calls).
Proof.
  intros calls. split; [reflexivity|].
  apply (run_no_dead_ends calls). reflexivity.
Defined.
